(** * game-repository: turn-artifact reclamation and process lifecycle

    A shallow embedding of [main.go] of alarmfox/game-repository: the
    configuration defaults ([makeDefaults]), the periodic sweep of unlinked
    metadata rows ([cleanup]) and the two sibling tasks started by [run]
    (the HTTP server and the cleanup loop, joined by an errgroup).  The upload
    and download of a turn's artifact, whose code is in package [turn], are
    modelled from the specification.

    The relational store (gorm/postgres) and the filesystem are external
    collaborators.  They are modelled by a small world state: the committed
    rows of the metadata table, the files of the data directory, and the
    lines written with [log.Print].  Failures of the collaborators are inputs
    of the model (a [Faults] record for the store, a map from paths to the
    error their unlink reports for the filesystem), so the theorems hold for
    every choice of them.  A sweep is taken on its own: the request handlers
    do not change the table while it runs. *)

From Stdlib Require Import ZArith.
From stdpp Require Import gmap strings list fin_maps.

Open Scope Z_scope.

(** ** Go errors *)

(** The [error] values that reach this file.  [ErrNotExist] stands for any
    error [err] with [errors.Is(err, os.ErrNotExist)]. *)
Inductive error : Type :=
| ErrNotExist
| ErrPermission
| ErrIO (msg : string)
| ErrDB (msg : string)
| ErrHTTP (msg : string).

#[global] Instance error_eq_dec : EqDecision error.
Proof. solve_decision. Defined.

(** [errors.Is(err, os.ErrNotExist)] *)
Definition is_ErrNotExist (e : error) : bool :=
  match e with
  | ErrNotExist => true
  | _ => false
  end.

(** ** Configuration (main.go, lines 34-41 and 248-265) *)

Module Config.

(** [time.Duration] is an int64 count of nanoseconds. *)
Definition Duration := Z.

Definition Nanosecond : Duration := 1.
Definition Second : Duration := 1000000000 * Nanosecond.
Definition Minute : Duration := 60 * Second.
Definition Hour : Duration := 60 * Minute.

Record Configuration : Type := mkConfiguration {
  PostgresUrl : string;
  ListenAddress : string;
  ApiPrefix : string;
  DataDir : string;
  EnableSwagger : bool;
  CleanupInterval : Duration
}.

Definition set_ApiPrefix (v : string) (c : Configuration) : Configuration :=
  mkConfiguration (PostgresUrl c) (ListenAddress c) v (DataDir c)
                  (EnableSwagger c) (CleanupInterval c).

Definition set_ListenAddress (v : string) (c : Configuration) : Configuration :=
  mkConfiguration (PostgresUrl c) v (ApiPrefix c) (DataDir c)
                  (EnableSwagger c) (CleanupInterval c).

Definition set_DataDir (v : string) (c : Configuration) : Configuration :=
  mkConfiguration (PostgresUrl c) (ListenAddress c) (ApiPrefix c) v
                  (EnableSwagger c) (CleanupInterval c).

Definition set_CleanupInterval (v : Duration) (c : Configuration) : Configuration :=
  mkConfiguration (PostgresUrl c) (ListenAddress c) (ApiPrefix c) (DataDir c)
                  (EnableSwagger c) v.

(** [makeDefaults] updates the configuration in place through a pointer;
    here each of its four [if] statements is one update of the record. *)
Definition makeDefaults (c : Configuration) : Configuration :=
  let c := if decide (ApiPrefix c = EmptyString)
           then set_ApiPrefix "/" c else c in
  let c := if decide (ListenAddress c = EmptyString)
           then set_ListenAddress "localhost:3000" c else c in
  let c := if decide (DataDir c = EmptyString)
           then set_DataDir "data" c else c in
  let c := if decide (CleanupInterval c = 0)
           then set_CleanupInterval Hour c else c in
  c.

End Config.

(** ** The metadata table and the data directory *)

Module Store.

(** Modelled from the spec: [model.Metadata] is declared in package [model],
    which is not among the sources.  The fields are those of the spec's
    metadata record [{id, path, size, turn_id (nullable), created_at}];
    [cleanup] reads [m.ID], [m.Path] and the column [turn_id].  Timestamps are
    seconds since the epoch. *)
Record Metadata : Type := mkMetadata {
  ID : Z;
  CreatedAt : Z;
  TurnID : option Z;
  Path : string;
  Size : Z
}.

#[global] Instance Metadata_eq_dec : EqDecision Metadata.
Proof. solve_decision. Defined.

(** The data directory: the content of every file, by path, and the paths
    whose unlink fails, with the error the system call reports (a permission
    error, an I/O error, ...). *)
Record FS : Type := mkFS {
  files : gmap string (list Byte.byte);
  unlink_err : gmap string error
}.

(** [os.Remove(name)]: the new filesystem and the returned error ([None] is
    Go's [nil]).  A path that is not there gives [os.ErrNotExist]. *)
Definition os_Remove (name : string) (fs : FS) : FS * option error :=
  match unlink_err fs !! name with
  | Some e => (fs, Some e)
  | None =>
      match files fs !! name with
      | Some _ => (mkFS (delete name (files fs)) (unlink_err fs), None)
      | None => (fs, Some ErrNotExist)
      end
  end.

(** What the process can observe and change: the committed rows of the
    metadata table (in storage order), the ids of the existing turns, the data
    directory and the lines printed by [log.Print]. *)
Record World : Type := mkWorld {
  table : list Metadata;
  turns : gset Z;
  fs : FS;
  logged : list error
}.

(** Failures of the relational store during one transaction, chosen by the
    environment: of [Begin], of the [Find]/[Count] query (with the value the
    failed chain leaves in [n]), of [Delete] (which may depend on the ids it
    is given: gorm refuses a delete without conditions) and of [Commit]. *)
Record Faults : Type := mkFaults {
  begin_err : option error;
  query_err : option error;
  query_n : Z;
  delete_err : list Z → option error;
  commit_err : option error
}.

Definition no_faults : Faults := mkFaults None None 0 (λ _, None) None.

(** [Where("turn_id IS NULL")] *)
Definition turn_id_is_null (m : Metadata) : Prop := TurnID m = None.

#[global] Instance turn_id_is_null_dec m : Decision (turn_id_is_null m).
Proof. unfold turn_id_is_null. apply _. Defined.

(** [tx.Where("turn_id IS NULL").Find(&metadata)] *)
Definition Find_unlinked (tbl : list Metadata) : list Metadata :=
  filter turn_id_is_null tbl.

(** [tx.Delete(&[]model.Metadata{}, ids)]: delete by primary key. *)
Definition Delete_ids (ids : list Z) (tbl : list Metadata) : list Metadata :=
  filter (λ m, ID m ∉ ids) tbl.

(** The variables of the [for _, m := range metadata] loop of [cleanup]: the
    filesystem, the log and the slice [deleted]. *)
Record Loop : Type := mkLoop {
  l_fs : FS;
  l_log : list error;
  deleted : list Z
}.

(** The test of line 235 on the result of [os.Remove]: [nil], or an error
    that is [os.ErrNotExist], lets the id into [deleted]. *)
Definition tolerated (r : option error) : bool :=
  match r with
  | Some e => is_ErrNotExist e
  | None => true
  end.

(** Whether [os.Remove] of the blob of [m] gives a tolerated result: it does
    unless unlinking the path fails with an error other than
    [os.ErrNotExist]. *)
Definition accepts (fs : FS) (m : Metadata) : bool :=
  match unlink_err fs !! Path m with
  | Some e => is_ErrNotExist e
  | None => true
  end.

(** One iteration (main.go, lines 235-239). *)
Definition remove_one (m : Metadata) (st : Loop) : Loop :=
  let '(fs', err) := os_Remove (Path m) (l_fs st) in
  match err with
  | Some e =>
      if negb (is_ErrNotExist e)
      then mkLoop fs' (l_log st ++ [e]) (deleted st)
      else mkLoop fs' (l_log st) (deleted st ++ [ID m])
  | None => mkLoop fs' (l_log st) (deleted st ++ [ID m])
  end.

Fixpoint remove_loop (metadata : list Metadata) (st : Loop) : Loop :=
  match metadata with
  | [] => st
  | m :: rest => remove_loop rest (remove_one m st)
  end.

(** The loop state after each iteration, in order. *)
Fixpoint loop_states (metadata : list Metadata) (st : Loop) : list Loop :=
  match metadata with
  | [] => []
  | m :: rest => let st' := remove_one m st in st' :: loop_states rest st'
  end.

(** The result of [cleanup]: the returned pair [(n, err)] and the world it
    leaves. *)
Record Sweep : Type := mkSweep {
  n : Z;
  err : option error;
  after : World
}.

(** The rows selected by a sweep, and the loop over them. *)
Definition selection (w : World) : list Metadata := Find_unlinked (table w).

Definition sweep_loop (w : World) : Loop :=
  remove_loop (selection w) (mkLoop (fs w) (logged w) []).

(** The world while the transaction is open: the rows other connections see
    are the committed ones. *)
Definition during (w : World) (st : Loop) : World :=
  mkWorld (table w) (turns w) (l_fs st) (l_log st).

(** [cleanup] (main.go, lines 215-246).  [db.Transaction] begins a
    transaction, runs the closure, and commits when the closure returns [nil];
    otherwise it rolls back, and the committed rows are the ones before.  [n]
    is set by [Count] to the number of rows the query matches; it is 0 when
    the closure is not run. *)
Definition cleanup (f : Faults) (w : World) : Sweep :=
  match begin_err f with
  | Some e => mkSweep 0 (Some e) w
  | None =>
      match query_err f with
      | Some e => mkSweep (query_n f) (Some e) w
      | None =>
          let metadata := selection w in
          let n := Z.of_nat (length metadata) in
          let st := sweep_loop w in
          match delete_err f (deleted st) with
          | Some e => mkSweep n (Some e) (during w st)
          | None =>
              match commit_err f with
              | Some e => mkSweep n (Some e) (during w st)
              | None =>
                  mkSweep n None
                    (mkWorld (Delete_ids (deleted st) (table w)) (turns w)
                             (l_fs st) (l_log st))
              end
          end
      end
  end.

(** The worlds a sweep goes through: the one it starts in, the one after each
    [os.Remove], and the one it leaves.  [tx.Delete] changes only what the open
    transaction sees, so the world after it is still the one after the last
    [os.Remove].  A sweep that is killed stops in one of these worlds that is
    not the last, and the store drops the open transaction. *)
Definition cleanup_states (f : Faults) (w : World) : list World :=
  match begin_err f, query_err f with
  | None, None =>
      w :: map (during w) (loop_states (selection w) (mkLoop (fs w) (logged w) []))
        ++ [after (cleanup f w)]
  | _, _ => [w; after (cleanup f w)]
  end.

(** Whether the blob at a path is in the data directory. *)
Definition blob_exists (p : string) (w : World) : Prop :=
  is_Some (files (fs w) !! p).

#[global] Instance blob_exists_dec p w : Decision (blob_exists p w).
Proof. unfold blob_exists. apply _. Defined.

(** The line the loop prints for a row (line 236): the error of [os.Remove]
    when it is not tolerated. *)
Definition printed (fs : FS) (m : Metadata) : option error :=
  match unlink_err fs !! Path m with
  | Some e => if is_ErrNotExist e then None else Some e
  | None => None
  end.

End Store.

(** ** The two tasks of [run] (main.go, lines 159-180) *)

Module Supervisor.
Import Store.

(** A function passed to [g.Go]: still running, or returned with its
    result. *)
Inductive task : Type :=
| Running
| Returned (result : option error).

(** The process after [run] has started both tasks: the world, the HTTP
    server task, the cleanup loop task, whether the context of the errgroup is
    done, and the error the errgroup has recorded. *)
Record Proc : Type := mkProc {
  world : World;
  http : task;
  reclaim : task;
  ctx_done : bool;
  group_err : option error
}.

(** What can happen next; the order of the events is the interleaving of the
    goroutines chosen by the scheduler and by [select]. *)
Inductive event : Type :=
| Signal                            (* SIGTERM or interrupt cancels the parent context *)
| Tick (f : Faults)                 (* the loop receives from [ticker.C]; the store behaves as [f] *)
| ReclaimSeesDone                   (* the loop receives from [ctx.Done()] *)
| ListenFails (e : error)           (* [ListenAndServe] fails with [e], not [http.ErrServerClosed] *)
| HttpSeesDone (r : option error).  (* [startHttpServer] receives from [ctx.Done()]; [Shutdown] returns [r] *)

(** errgroup: when a function passed to [Go] returns a non-nil error for the
    first time, the group records it and cancels its context. *)
Definition errgroup_return (r : option error) (ge : option error) (done : bool)
  : option error * bool :=
  match r, ge with
  | Some e, None => (Some e, true)
  | _, _ => (ge, done)
  end.

(** The body of the [case <-ticker.C] branch (lines 170-173): one sweep,
    whose error, if any, is printed. *)
Definition tick (f : Faults) (w : World) : World :=
  let r := cleanup f w in
  match err r with
  | Some e => mkWorld (table (after r)) (turns (after r)) (fs (after r))
                      (logged (after r) ++ [e])
  | None => after r
  end.

Definition step (ev : event) (p : Proc) : Proc :=
  match ev with
  | Signal => mkProc (world p) (http p) (reclaim p) true (group_err p)
  | Tick f =>
      match reclaim p with
      | Running =>
          mkProc (tick f (world p)) (http p) Running (ctx_done p) (group_err p)
      | Returned _ => p
      end
  | ReclaimSeesDone =>
      match reclaim p, ctx_done p with
      | Running, true =>
          let '(ge, done) := errgroup_return None (group_err p) (ctx_done p) in
          mkProc (world p) (http p) (Returned None) done ge
      | _, _ => p
      end
  | ListenFails e =>
      match http p with
      | Running =>
          let '(ge, done) := errgroup_return (Some e) (group_err p) (ctx_done p) in
          mkProc (world p) (Returned (Some e)) (reclaim p) done ge
      | Returned _ => p
      end
  | HttpSeesDone r =>
      match http p, ctx_done p with
      | Running, true =>
          let '(ge, done) := errgroup_return r (group_err p) (ctx_done p) in
          mkProc (world p) (Returned r) (reclaim p) done ge
      | _, _ => p
      end
  end.

Fixpoint run_events (evs : list event) (p : Proc) : Proc :=
  match evs with
  | [] => p
  | ev :: rest => run_events rest (step ev p)
  end.

Definition start (w : World) : Proc := mkProc w Running Running false None.

(** [g.Wait()] returns once both functions have returned, with the recorded
    error; [main] calls [log.Fatal] on a non-nil error, which exits with
    status 1, and otherwise returns, which exits with status 0. *)
Definition exit_status (p : Proc) : option Z :=
  match http p, reclaim p with
  | Returned _, Returned _ =>
      Some (match group_err p with Some _ => 1 | None => 0 end)
  | _, _ => None
  end.

(** What holds in every state the process reaches: a task that has returned
    has seen the context done or has made it so; the cleanup loop only ever
    returns [nil]; an error returned by the server is recorded by the group;
    a recorded error means a cancelled context. *)
Definition Inv (p : Proc) : Prop :=
  (http p ≠ Running → ctx_done p = true)
  ∧ (∀ r, reclaim p = Returned r → r = None ∧ ctx_done p = true)
  ∧ (∀ e, http p = Returned (Some e) → group_err p ≠ None)
  ∧ (group_err p ≠ None → ctx_done p = true).

(** The events in which a task returns a non-nil error: [ListenAndServe]
    fails, or [Shutdown] returns an error. *)
Definition is_failure (ev : event) : bool :=
  match ev with
  | ListenFails _ => true
  | HttpSeesDone (Some _) => true
  | _ => false
  end.


Definition is_tick (ev : event) : bool :=
  match ev with
  | Tick _ => true
  | _ => false
  end.

End Supervisor.

(** ** Upload and download of a turn's artifact *)

Module Artifact.
Import Store.

(** Modelled from the spec: the error kinds of section 7. *)
Inductive ArtifactError : Type :=
| NotFound
| InvalidContent
| StorageConflict
| IOFailure.

(** The one accepted content type (main.go, line 337). *)
Definition archive_type : string := "application/zip".

(** Failures of the collaborators during one upload: of the blob write and
    of the metadata transaction. *)
Record UploadFaults : Type := mkUploadFaults {
  write_err : option error;
  tx_err : option error
}.

(** The turn's current metadata record. *)
Definition current (turnId : Z) (tbl : list Metadata) : option Metadata :=
  head (filter (λ m, TurnID m = Some turnId) tbl).

(** A path that collides with no file and no recorded path. *)
Definition new_path (w : World) : string :=
  fresh (dom (files (fs w)) ∪ list_to_set (map Path (table w)) : gset string).

(** An id assigned by the store: above every id in use. *)
Definition new_id (tbl : list Metadata) : Z :=
  1 + foldr Z.max 0 (map ID tbl).

(** Modelled from the spec: [Upload] of section 4.1, whose code (package
    [turn]) is not among the sources.  The preconditions are checked first;
    step 1 writes the blob at a new path (a failed write leaves no blob);
    step 2 replaces the turn's record by a new one in one transaction; step 3
    removes the new blob when the commit fails; step 4 removes the blob of the
    superseded record, and only logs a failure to do so. *)
Definition Upload (maxSize now : Z) (uf : UploadFaults)
    (turnId : Z) (content : list Byte.byte) (ctype : string) (w : World)
  : (ArtifactError + Metadata) * World :=
  if decide (turnId ∉ turns w) then (inl NotFound, w)
  else if decide (ctype ≠ archive_type ∨ maxSize < Z.of_nat (length content))
  then (inl InvalidContent, w)
  else
    match write_err uf with
    | Some _ => (inl IOFailure, w)
    | None =>
        let p := new_path w in
        let fs1 := mkFS (<[p := content]> (files (fs w))) (unlink_err (fs w)) in
        let prev := current turnId (table w) in
        let md := mkMetadata (new_id (table w)) now (Some turnId) p
                             (Z.of_nat (length content)) in
        match tx_err uf with
        | Some _ =>
            (inl StorageConflict,
             mkWorld (table w) (turns w)
                     (mkFS (delete p (files fs1)) (unlink_err fs1)) (logged w))
        | None =>
            let tbl := filter (λ m, TurnID m ≠ Some turnId) (table w) ++ [md] in
            match prev with
            | Some old =>
                let '(fs2, r) := os_Remove (Path old) fs1 in
                let log := match r with
                           | Some e => logged w ++ [e]
                           | None => logged w
                           end in
                (inr md, mkWorld tbl (turns w) fs2 log)
            | None => (inr md, mkWorld tbl (turns w) fs1 (logged w))
            end
        end
    end.

(** Modelled from the spec: [Download] of section 4.1: the bytes of the blob
    of the turn's current record, with the recorded size. *)
Definition Download (turnId : Z) (w : World)
  : ArtifactError + (list Byte.byte * Z) :=
  match current turnId (table w) with
  | None => inl NotFound
  | Some m =>
      match files (fs w) !! Path m with
      | None => inl IOFailure
      | Some bytes => inr (bytes, Size m)
      end
  end.

End Artifact.

(** ** Example worlds *)

Module Examples.
Import Store.

Definition zip1 : list Byte.byte := [Byte.x50; Byte.x4b; Byte.x03].
Definition zip2 : list Byte.byte := [Byte.x50; Byte.x4b; Byte.x05; Byte.x06].

(** Rows: [m_linked] is the artifact of turn 7; the others have no turn. *)
Definition m_linked : Metadata := mkMetadata 1 10 (Some 7) "data/a.zip" 3.
Definition m_fresh : Metadata := mkMetadata 2 1000 None "data/b.zip" 4.
Definition m_gone : Metadata := mkMetadata 3 20 None "data/c.zip" 3.
Definition m_stuck : Metadata := mkMetadata 4 30 None "data/d.zip" 3.

(** One linked row and one unlinked row created at second 1000; both blobs
    are in the data directory. *)
Definition fs_fresh : FS :=
  mkFS (<["data/a.zip" := zip1]> (<["data/b.zip" := zip2]> ∅)) ∅.
Definition w_fresh : World := mkWorld [m_linked; m_fresh] {[ 7 ]} fs_fresh [].

(** Four rows: the blob of [m_gone] is missing and the blob of [m_stuck]
    cannot be unlinked. *)
Definition fs_mixed : FS :=
  mkFS (<["data/a.zip" := zip1]> (<["data/b.zip" := zip2]> (<["data/d.zip" := zip1]> ∅)))
       (<["data/d.zip" := ErrPermission]> ∅).
Definition w_mixed : World :=
  mkWorld [m_linked; m_gone; m_stuck; m_fresh] {[ 7 ]} fs_mixed [].

(** The store fails at commit. *)
Definition commit_fails : Faults :=
  mkFaults None None 0 (λ _, None) (Some (ErrDB "commit failed")).

(** The port is taken when the server starts. *)
Definition bind_error : error := ErrHTTP "bind: address already in use".

(** An upload during which nothing fails. *)
Definition upload_ok : Artifact.UploadFaults := Artifact.mkUploadFaults None None.

End Examples.

(** ** Theorems: configuration *)

Section ConfigFacts.
Import Config.

Example makeDefaults_empty :
  makeDefaults (mkConfiguration "postgres://db" EmptyString EmptyString EmptyString true 0)
  = mkConfiguration "postgres://db" "localhost:3000" "/" "data" true 3600000000000.
Proof. reflexivity. Qed.

Example makeDefaults_set :
  let c := mkConfiguration EmptyString "0.0.0.0:80" "/api" "/var/data" false (5 * Minute) in
  makeDefaults c = c.
Proof. reflexivity. Qed.

(** C10: [makeDefaults] only fills in zero-valued fields: an empty
    [ApiPrefix] becomes "/", an empty [ListenAddress] "localhost:3000", an
    empty [DataDir] "data" and a zero [CleanupInterval] one hour; every field
    that is already set keeps its value, and [PostgresUrl] and
    [EnableSwagger] are unchanged in all cases. *)
Theorem makeDefaults_frame (c : Configuration) :
  ApiPrefix (makeDefaults c)
    = (if decide (ApiPrefix c = EmptyString) then "/" else ApiPrefix c)
  ∧ ListenAddress (makeDefaults c)
    = (if decide (ListenAddress c = EmptyString) then "localhost:3000"
       else ListenAddress c)
  ∧ DataDir (makeDefaults c)
    = (if decide (DataDir c = EmptyString) then "data" else DataDir c)
  ∧ CleanupInterval (makeDefaults c)
    = (if decide (CleanupInterval c = 0) then 3600 * 1000000000
       else CleanupInterval c)
  ∧ PostgresUrl (makeDefaults c) = PostgresUrl c
  ∧ EnableSwagger (makeDefaults c) = EnableSwagger c.
Proof.
  destruct c as [pg la ap dd sw ci]; unfold makeDefaults; cbn.
  repeat (case_decide; cbn in *); subst; repeat split;
    first [reflexivity | congruence].
Qed.

End ConfigFacts.

(** ** Lemmas: the removal loop *)

Section LoopFacts.
Import Store.

Lemma os_Remove_unlink_err name fs0 :
  unlink_err (os_Remove name fs0).1 = unlink_err fs0.
Proof.
  unfold os_Remove.
  destruct (unlink_err fs0 !! name); [reflexivity|].
  destruct (files fs0 !! name); reflexivity.
Qed.

Lemma os_Remove_other name fs0 q :
  q ≠ name → files (os_Remove name fs0).1 !! q = files fs0 !! q.
Proof.
  intros Hne. unfold os_Remove.
  destruct (unlink_err fs0 !! name); [reflexivity|].
  destruct (files fs0 !! name); cbn; [|reflexivity].
  by rewrite lookup_delete_ne.
Qed.

Lemma os_Remove_faulty name fs0 e :
  unlink_err fs0 !! name = Some e → os_Remove name fs0 = (fs0, Some e).
Proof. intros H. unfold os_Remove. by rewrite H. Qed.

Lemma tolerated_accepts m fs0 :
  tolerated (os_Remove (Path m) fs0).2 = accepts fs0 m.
Proof.
  unfold os_Remove, accepts.
  destruct (unlink_err fs0 !! Path m); [reflexivity|].
  destruct (files fs0 !! Path m); reflexivity.
Qed.

Lemma accepts_ext fs1 fs2 m :
  unlink_err fs1 = unlink_err fs2 → accepts fs1 m = accepts fs2 m.
Proof. unfold accepts. by intros ->. Qed.

Lemma remove_one_fs m st :
  l_fs (remove_one m st) = (os_Remove (Path m) (l_fs st)).1.
Proof.
  unfold remove_one. destruct (os_Remove (Path m) (l_fs st)) as [fs' [e|]]; cbn;
    [destruct (is_ErrNotExist e)|]; reflexivity.
Qed.

Lemma remove_one_deleted m st :
  deleted (remove_one m st)
  = if tolerated (os_Remove (Path m) (l_fs st)).2
    then deleted st ++ [ID m] else deleted st.
Proof.
  unfold remove_one. destruct (os_Remove (Path m) (l_fs st)) as [fs' [e|]]; cbn;
    [destruct (is_ErrNotExist e)|]; reflexivity.
Qed.

Lemma remove_loop_app ms1 ms2 st :
  remove_loop (ms1 ++ ms2) st = remove_loop ms2 (remove_loop ms1 st).
Proof.
  revert st. induction ms1 as [|m ms1 IH]; intros st; cbn; [reflexivity|].
  apply IH.
Qed.

Lemma remove_loop_unlink_err ms st :
  unlink_err (l_fs (remove_loop ms st)) = unlink_err (l_fs st).
Proof.
  revert st. induction ms as [|m ms IH]; intros st; cbn; [reflexivity|].
  by rewrite IH, remove_one_fs, os_Remove_unlink_err.
Qed.

(** The ids the loop appends are those of the rows with an accepted removal,
    in order: an unaccepted one does not stop the loop. *)
Lemma remove_loop_deleted ms st :
  deleted (remove_loop ms st)
  = deleted st ++ map ID (filter (λ m, accepts (l_fs st) m) ms).
Proof.
  revert st. induction ms as [|m ms IH]; intros st.
  - cbn. by rewrite app_nil_r.
  - change (remove_loop (m :: ms) st) with (remove_loop ms (remove_one m st)).
    rewrite IH, remove_one_deleted, tolerated_accepts.
    assert (Hext : ∀ x, accepts (l_fs (remove_one m st)) x = accepts (l_fs st) x).
    { intros x. apply accepts_ext. by rewrite remove_one_fs, os_Remove_unlink_err. }
    rewrite (list_filter_iff (λ x, accepts (l_fs (remove_one m st)) x)
                             (λ x, accepts (l_fs st) x)) by (intros x; by rewrite Hext).
    rewrite (filter_cons _ m ms). case_decide as Hd.
    + apply Is_true_true in Hd. rewrite Hd. cbn. by rewrite <- app_assoc.
    + apply Is_true_false in Hd. by rewrite Hd.
Qed.

(** A file whose path is not the path of a processed row is left alone. *)
Lemma remove_loop_files_other ms st q :
  (∀ m, m ∈ ms → Path m ≠ q) →
  files (l_fs (remove_loop ms st)) !! q = files (l_fs st) !! q.
Proof.
  revert st. induction ms as [|m ms IH]; intros st Hq; cbn; [reflexivity|].
  rewrite IH by (intros m' Hm'; apply Hq, elem_of_cons; by right).
  rewrite remove_one_fs. apply os_Remove_other.
  intros ->. apply (Hq m); [apply elem_of_cons; by left|done].
Qed.

(** A file that cannot be unlinked stays. *)
Lemma remove_loop_files_faulty ms st q e :
  unlink_err (l_fs st) !! q = Some e →
  files (l_fs (remove_loop ms st)) !! q = files (l_fs st) !! q.
Proof.
  revert st. induction ms as [|m ms IH]; intros st Hq; cbn; [reflexivity|].
  rewrite IH by (by rewrite remove_one_fs, os_Remove_unlink_err).
  rewrite remove_one_fs.
  destruct (decide (q = Path m)) as [->|Hne]; [|by apply os_Remove_other].
  by rewrite (os_Remove_faulty _ _ _ Hq).
Qed.

(** A primary key identifies its row. *)
Lemma pk_unique (tbl : list Metadata) m1 m2 :
  NoDup (map ID tbl) → m1 ∈ tbl → m2 ∈ tbl → ID m1 = ID m2 → m1 = m2.
Proof.
  induction tbl as [|x tbl IH]; intros Hnd H1 H2 Hid; [by apply elem_of_nil in H1|].
  cbn in Hnd. apply NoDup_cons in Hnd as [Hx Hnd].
  apply elem_of_cons in H1 as [->|H1]; apply elem_of_cons in H2 as [->|H2].
  - reflexivity.
  - exfalso. apply Hx. rewrite Hid. apply list_elem_of_fmap. eauto.
  - exfalso. apply Hx. rewrite <- Hid. apply list_elem_of_fmap. eauto.
  - by apply IH.
Qed.

Lemma elem_of_selection w m :
  m ∈ selection w ↔ TurnID m = None ∧ m ∈ table w.
Proof. unfold selection, Find_unlinked. by rewrite list_elem_of_filter. Qed.

Lemma sweep_loop_deleted w :
  deleted (sweep_loop w) = map ID (filter (λ m, accepts (fs w) m) (selection w)).
Proof. unfold sweep_loop. by rewrite remove_loop_deleted. Qed.

Lemma elem_of_sweep_deleted w i :
  i ∈ deleted (sweep_loop w)
  ↔ ∃ m, m ∈ table w ∧ TurnID m = None ∧ accepts (fs w) m = true ∧ ID m = i.
Proof.
  rewrite sweep_loop_deleted, list_elem_of_fmap. split.
  - intros (m & -> & Hm). apply list_elem_of_filter in Hm as [Ha Hm].
    apply elem_of_selection in Hm as [Ht Hm]. exists m.
    repeat split; try done. by apply Is_true_true.
  - intros (m & Hm & Ht & Ha & <-). exists m. split; [done|].
    apply list_elem_of_filter. split; [by apply Is_true_true|].
    by apply elem_of_selection.
Qed.

End LoopFacts.

(** ** Theorems: one sweep *)

Section SweepFacts.
Import Store Examples.

(** The outcome of a sweep: it fails before the loop and changes nothing, or
    it fails after the loop and keeps the rows, or it commits the deletion. *)
Lemma cleanup_cases f w :
  (err (cleanup f w) ≠ None ∧ after (cleanup f w) = w)
  ∨ (err (cleanup f w) ≠ None
     ∧ n (cleanup f w) = Z.of_nat (length (selection w))
     ∧ after (cleanup f w) = during w (sweep_loop w))
  ∨ (err (cleanup f w) = None
     ∧ n (cleanup f w) = Z.of_nat (length (selection w))
     ∧ after (cleanup f w)
       = mkWorld (Delete_ids (deleted (sweep_loop w)) (table w)) (turns w)
                 (l_fs (sweep_loop w)) (l_log (sweep_loop w))).
Proof.
  unfold cleanup.
  destruct (begin_err f); [by left|].
  destruct (query_err f); [by left|].
  destruct (delete_err f _); [right; by left|].
  destruct (commit_err f); [right; by left|].
  right; by right.
Qed.

(** Only the store makes a sweep fail: the result of [os.Remove] never does. *)
Lemma cleanup_ok_iff f w :
  err (cleanup f w) = None
  ↔ begin_err f = None ∧ query_err f = None
    ∧ delete_err f (deleted (sweep_loop w)) = None ∧ commit_err f = None.
Proof.
  unfold cleanup.
  destruct (begin_err f); [cbn; split; [done|by intros (? & _)]|].
  destruct (query_err f); [cbn; split; [done|by intros (_ & ? & _)]|].
  destruct (delete_err f _); [cbn; split; [done|by intros (_ & _ & ? & _)]|].
  destruct (commit_err f); [cbn; split; [done|by intros (_ & _ & _ & ?)]|].
  done.
Qed.

Lemma cleanup_err_table f w :
  err (cleanup f w) ≠ None → table (after (cleanup f w)) = table w.
Proof.
  intros He. destruct (cleanup_cases f w) as [[_ ->]|[(_ & _ & ->)|[Hok _]]];
    [reflexivity|reflexivity|done].
Qed.

Lemma cleanup_ok_table f w :
  err (cleanup f w) = None →
  table (after (cleanup f w)) = Delete_ids (deleted (sweep_loop w)) (table w).
Proof.
  intros He. destruct (cleanup_cases f w) as [[Hn _]|[[Hn _]|(_ & _ & ->)]];
    [done|done|reflexivity].
Qed.

Lemma cleanup_files f w q :
  files (fs (after (cleanup f w))) !! q = files (fs w) !! q
  ∨ files (fs (after (cleanup f w))) !! q = files (l_fs (sweep_loop w)) !! q.
Proof.
  destruct (cleanup_cases f w) as [[_ ->]|[(_ & _ & ->)|(_ & _ & ->)]];
    [by left|by right|by right].
Qed.

Lemma elem_of_Delete_ids ids tbl m :
  m ∈ Delete_ids ids tbl ↔ (ID m ∉ ids) ∧ m ∈ tbl.
Proof. unfold Delete_ids. by rewrite list_elem_of_filter. Qed.

(** A row stays in the table through any sweep unless its id is in the
    batch. *)
Lemma cleanup_row_stays f w m :
  m ∈ table w → ID m ∉ deleted (sweep_loop w) → m ∈ table (after (cleanup f w)).
Proof.
  intros Hm Hid.
  destruct (cleanup_cases f w) as [[_ ->]|[(_ & _ & ->)|(_ & _ & ->)]]; cbn;
    [done|done|]. by apply elem_of_Delete_ids.
Qed.

(** With unique primary keys, the batch holds the id of no linked row. *)
Lemma linked_not_in_batch w m :
  NoDup (map ID (table w)) → m ∈ table w → TurnID m ≠ None →
  ID m ∉ deleted (sweep_loop w).
Proof.
  intros Hnd Hm Hl Hin.
  apply elem_of_sweep_deleted in Hin as (m' & Hm' & Ht & _ & Hid).
  assert (m' = m) as -> by (by apply (pk_unique (table w))).
  done.
Qed.

Lemma sweep_loop_files_other w q :
  (∀ m, m ∈ table w → TurnID m = None → Path m ≠ q) →
  files (l_fs (sweep_loop w)) !! q = files (fs w) !! q.
Proof.
  intros Hq. unfold sweep_loop. rewrite remove_loop_files_other; [reflexivity|].
  intros m Hm. apply elem_of_selection in Hm as [Ht Hm]. by apply Hq.
Qed.

(** C2: a sweep deletes no row whose [turn_id] is non-null, whatever its age
    (primary keys being unique), and it does not touch the blob of such a row
    (no unlinked row sharing its path: paths are allocated once per write). *)
Theorem cleanup_keeps_linked (f : Faults) (w : World) (m : Metadata) :
  NoDup (map ID (table w)) →
  m ∈ table w →
  TurnID m ≠ None →
  m ∈ table (after (cleanup f w))
  ∧ ((∀ m', m' ∈ table w → TurnID m' = None → Path m' ≠ Path m) →
     files (fs (after (cleanup f w))) !! Path m = files (fs w) !! Path m).
Proof.
  intros Hnd Hm Hl. split.
  - apply cleanup_row_stays; [done|]. by apply linked_not_in_batch.
  - intros Hp. destruct (cleanup_files f w (Path m)) as [->| ->]; [done|].
    by apply sweep_loop_files_other.
Qed.

Lemma cleanup_keeps_linked_witness :
  m_linked ∈ table (after (cleanup no_faults w_mixed))
  ∧ files (fs (after (cleanup no_faults w_mixed))) !! Path m_linked
    = files (fs w_mixed) !! Path m_linked.
Proof.
  assert (Hnd : NoDup (map ID (table w_mixed))) by compute_done.
  assert (Hm : m_linked ∈ table w_mixed) by compute_done.
  assert (Hl : TurnID m_linked ≠ None) by done.
  destruct (cleanup_keeps_linked no_faults w_mixed m_linked Hnd Hm Hl) as [H1 H2].
  split; [exact H1|apply H2].
  apply (Forall_forall (λ m', TurnID m' = None → Path m' ≠ Path m_linked)).
  compute_done.
Defined.

(** Every unlinked row with an accepted removal is deleted by a sweep that
    commits. *)
Lemma accepted_row_deleted f w m :
  err (cleanup f w) = None → m ∈ table w → TurnID m = None →
  accepts (fs w) m = true → m ∉ table (after (cleanup f w)).
Proof.
  intros Hok Hm Ht Ha. rewrite (cleanup_ok_table f w Hok).
  rewrite elem_of_Delete_ids. intros [Hid _]. apply Hid.
  apply elem_of_sweep_deleted. by exists m.
Qed.

(** C1 (as amended): the rows a sweep selects are exactly those whose
    [turn_id] is NULL, whatever their [created_at]: the code has no grace
    period.  Every id in the deletion batch is the id of an unlinked row, and
    when the sweep commits, every unlinked row whose blob removal succeeded
    or reported a missing file is deleted, however recently it was created. *)
Theorem cleanup_selects_unlinked_any_age (f : Faults) (w : World) :
  (∀ m, m ∈ selection w ↔ m ∈ table w ∧ TurnID m = None)
  ∧ (∀ i, i ∈ deleted (sweep_loop w) →
          ∃ m, m ∈ table w ∧ TurnID m = None ∧ ID m = i)
  ∧ (err (cleanup f w) = None →
     ∀ m, m ∈ table w → TurnID m = None → accepts (fs w) m = true →
          m ∉ table (after (cleanup f w))).
Proof.
  split; [|split].
  - intros m. rewrite elem_of_selection. tauto.
  - intros i Hi. apply elem_of_sweep_deleted in Hi as (m & Hm & Ht & _ & Hid).
    by exists m.
  - intros Hok m Hm Ht Ha. by apply accepted_row_deleted.
Qed.

Lemma cleanup_selects_unlinked_any_age_witness :
  m_fresh ∉ table (after (cleanup no_faults w_fresh)).
Proof.
  destruct (cleanup_selects_unlinked_any_age no_faults w_fresh) as (_ & _ & H).
  apply H; [reflexivity|compute_done|reflexivity|reflexivity].
Defined.

(** C1 (as stated) fails: a sweep at second 1005 with a grace period of one
    hour finds the unlinked row created at second 1000, removes its blob and
    deletes the row. *)
Lemma cleanup_deletes_fresh_unlinked :
  let now := 1005 in
  let grace := 3600 in
  m_fresh ∈ table w_fresh
  ∧ TurnID m_fresh = None
  ∧ now - CreatedAt m_fresh < grace
  ∧ err (cleanup no_faults w_fresh) = None
  ∧ (m_fresh ∉ table (after (cleanup no_faults w_fresh)))
  ∧ ¬ blob_exists (Path m_fresh) (after (cleanup no_faults w_fresh)).
Proof. cbv zeta. repeat split; compute_done. Qed.

(** The states of a sweep: between the first and the last, the committed
    rows are those of the start. *)
Lemma cleanup_states_shape f w :
  ∃ mid, cleanup_states f w = w :: mid ++ [after (cleanup f w)]
         ∧ ∀ s, s ∈ mid → table s = table w.
Proof.
  unfold cleanup_states.
  destruct (begin_err f) eqn:Eb.
  { exists []. split; [reflexivity|]. intros s Hs. by apply elem_of_nil in Hs. }
  destruct (query_err f) eqn:Eq.
  { exists []. split; [reflexivity|]. intros s Hs. by apply elem_of_nil in Hs. }
  eexists. split; [reflexivity|].
  intros s Hs. apply list_elem_of_fmap in Hs as (st & -> & _). reflexivity.
Qed.

Lemma cleanup_states_table f w k s :
  cleanup_states f w !! k = Some s →
  (S k < length (cleanup_states f w))%nat →
  table s = table w.
Proof.
  destruct (cleanup_states_shape f w) as (mid & -> & Hmid).
  intros Hk Hlen. destruct k as [|k].
  { cbn in Hk. by injection Hk as <-. }
  change ((mid ++ [after (cleanup f w)]) !! k = Some s) in Hk.
  cbn in Hlen. rewrite length_app in Hlen. cbn in Hlen.
  rewrite lookup_app_l in Hk by lia.
  apply Hmid. by apply list_elem_of_lookup_2 in Hk.
Qed.

Lemma cleanup_states_last f w :
  last (cleanup_states f w) = Some (after (cleanup f w)).
Proof.
  destruct (cleanup_states_shape f w) as (mid & -> & _).
  by rewrite app_comm_cons, last_snoc.
Qed.

Lemma selection_table w1 w2 : table w1 = table w2 → selection w1 = selection w2.
Proof. unfold selection. by intros ->. Qed.

(** C5: the rows are selected and deleted in one transaction, and the
    deletion is its last step: in every state a sweep goes through before the
    last one the committed table is the one it started from, so a sweep that
    is interrupted there has deleted no row and the next sweep selects the
    same rows again; a sweep that returns an error leaves the table as it
    was; a sweep that commits deletes the rows of its batch. *)
Theorem sweep_atomic (f : Faults) (w : World) :
  (∀ k s, cleanup_states f w !! k = Some s →
          (S k < length (cleanup_states f w))%nat →
          table s = table w ∧ selection s = selection w)
  ∧ last (cleanup_states f w) = Some (after (cleanup f w))
  ∧ (err (cleanup f w) ≠ None →
     table (after (cleanup f w)) = table w
     ∧ selection (after (cleanup f w)) = selection w)
  ∧ (err (cleanup f w) = None →
     table (after (cleanup f w)) = Delete_ids (deleted (sweep_loop w)) (table w)).
Proof.
  split; [|split; [|split]].
  - intros k s Hk Hlen.
    assert (table s = table w) by (by apply (cleanup_states_table f w k)).
    split; [done|by apply selection_table].
  - apply cleanup_states_last.
  - intros He. assert (table (after (cleanup f w)) = table w)
      by (by apply cleanup_err_table).
    split; [done|by apply selection_table].
  - apply cleanup_ok_table.
Qed.

Lemma sweep_atomic_witness :
  (∃ s, cleanup_states commit_fails w_mixed !! 3%nat = Some s
        ∧ table s = table w_mixed ∧ selection s = selection w_mixed
        ∧ ¬ blob_exists (Path m_fresh) s)
  ∧ table (after (cleanup commit_fails w_mixed)) = table w_mixed
  ∧ table (after (cleanup no_faults w_mixed)) = [m_linked; m_stuck].
Proof.
  destruct (sweep_atomic commit_fails w_mixed) as (H1 & _ & H2 & _).
  destruct (sweep_atomic no_faults w_mixed) as (_ & _ & _ & H3).
  split; [|split].
  - eexists. split; [reflexivity|].
    destruct (H1 3%nat _ eq_refl) as [Ht Hs]; [vm_compute; lia|].
    split; [exact Ht|split; [exact Hs|compute_done]].
  - apply H2. discriminate.
  - rewrite H3 by reflexivity. reflexivity.
Defined.

(** A blob that a sweep removed was the blob of an unlinked row. *)
Lemma removed_blob_selected f w p :
  blob_exists p w → ¬ blob_exists p (after (cleanup f w)) →
  ∃ m, m ∈ table w ∧ TurnID m = None ∧ Path m = p.
Proof.
  intros Hp Hgone.
  destruct (decide (Exists (λ m, TurnID m = None ∧ Path m = p) (table w)))
    as [Hex|Hno].
  - apply Exists_exists in Hex as (m & Hm & Ht & Hpm). by exists m.
  - exfalso. apply Hgone. unfold blob_exists in *.
    destruct (cleanup_files f w p) as [->| ->]; [done|].
    rewrite sweep_loop_files_other; [done|].
    intros m Hm Ht Hpm. apply Hno, Exists_exists. by exists m.
Qed.

(** A blob that a sweep removed had an accepted removal. *)
Lemma removed_blob_accepted f w m :
  blob_exists (Path m) w → ¬ blob_exists (Path m) (after (cleanup f w)) →
  accepts (fs w) m = true.
Proof.
  intros Hp Hgone. unfold accepts.
  destruct (unlink_err (fs w) !! Path m) as [e|] eqn:Eu; [|reflexivity].
  exfalso. apply Hgone. unfold blob_exists in *.
  destruct (cleanup_files f w (Path m)) as [->| ->]; [done|].
  unfold sweep_loop. by rewrite (remove_loop_files_faulty _ _ _ e).
Qed.

(** C3 (as amended): in a sweep the blob of a selected row is removed first
    and the row is deleted afterwards, at the final commit.  A blob is only
    removed when an unlinked row references it; in every state before the
    last the committed table still holds all rows, also those whose blob is
    already removed; and once the sweep commits, no unlinked row whose blob
    the sweep removed is left in the table. *)
Theorem sweep_removes_blob_before_row (f : Faults) (w : World) :
  (∀ p, blob_exists p w → ¬ blob_exists p (after (cleanup f w)) →
        ∃ m, m ∈ table w ∧ TurnID m = None ∧ Path m = p)
  ∧ (∀ k s, cleanup_states f w !! k = Some s →
            (S k < length (cleanup_states f w))%nat → table s = table w)
  ∧ (err (cleanup f w) = None →
     ∀ m, m ∈ table w → TurnID m = None → blob_exists (Path m) w →
          ¬ blob_exists (Path m) (after (cleanup f w)) →
          m ∉ table (after (cleanup f w))).
Proof.
  split; [|split].
  - intros p. apply removed_blob_selected.
  - intros k s. apply cleanup_states_table.
  - intros Hok m Hm Ht Hp Hgone. apply accepted_row_deleted; try done.
    by apply (removed_blob_accepted f).
Qed.

Lemma sweep_removes_blob_before_row_witness :
  (∃ m, m ∈ table w_fresh ∧ TurnID m = None ∧ Path m = "data/b.zip")
  ∧ m_fresh ∉ table (after (cleanup no_faults w_fresh)).
Proof.
  destruct (sweep_removes_blob_before_row no_faults w_fresh) as (H1 & _ & H3).
  split.
  - apply H1; compute_done.
  - apply H3; [reflexivity|compute_done|reflexivity|compute_done|compute_done].
Defined.

(** C3 (as stated) fails: after the first [os.Remove] of the sweep, and
    before its commit, the blob of the unlinked row is gone while the
    committed table still contains the row whose path references it. *)
Lemma blob_removed_while_row_committed :
  let s := during w_fresh (remove_one m_fresh (mkLoop (fs w_fresh) (logged w_fresh) [])) in
  cleanup_states no_faults w_fresh !! 1%nat = Some s
  ∧ (1 < length (cleanup_states no_faults w_fresh) - 1)%nat
  ∧ m_fresh ∈ table s
  ∧ blob_exists (Path m_fresh) w_fresh
  ∧ ¬ blob_exists (Path m_fresh) s.
Proof. cbv zeta. split; [reflexivity|]. repeat split; compute_done. Qed.

(** C4: when [os.Remove] of the blob of a selected row fails because the
    file does not exist, the row's id still enters the batch and the row is
    deleted when the sweep commits; when it fails with another error, the id
    is left out of the batch and the row stays; in both cases the loop goes
    on with the rows after it, every other selected row with an accepted
    removal is in the batch, and the sweep commits unless the store fails. *)
Theorem sweep_blob_errors (f : Faults) (w : World)
    (pre post : list Metadata) (m : Metadata) :
  selection w = pre ++ m :: post →
  let st := remove_loop pre (mkLoop (fs w) (logged w) []) in
  let r := (os_Remove (Path m) (l_fs st)).2 in
  (∀ e, r = Some e → is_ErrNotExist e = true →
        ID m ∈ deleted (sweep_loop w)
        ∧ (err (cleanup f w) = None → m ∉ table (after (cleanup f w))))
  ∧ (∀ e, r = Some e → is_ErrNotExist e = false →
          NoDup (map ID (table w)) →
          (ID m ∉ deleted (sweep_loop w)) ∧ m ∈ table (after (cleanup f w)))
  ∧ sweep_loop w = remove_loop post (remove_one m st)
  ∧ (∀ m', m' ∈ pre ++ post → accepts (fs w) m' = true →
           ID m' ∈ deleted (sweep_loop w)
           ∧ (err (cleanup f w) = None → m' ∉ table (after (cleanup f w))))
  ∧ (begin_err f = None → query_err f = None →
     delete_err f (deleted (sweep_loop w)) = None → commit_err f = None →
     err (cleanup f w) = None).
Proof.
  intros Hsel st r.
  assert (Hin : ∀ x, x ∈ pre ++ m :: post → x ∈ table w ∧ TurnID x = None).
  { intros x Hx. rewrite <- Hsel in Hx. apply elem_of_selection in Hx. tauto. }
  assert (Hm : m ∈ table w ∧ TurnID m = None).
  { apply Hin. apply elem_of_app. right. apply elem_of_cons. by left. }
  assert (Hacc : tolerated r = accepts (fs w) m).
  { unfold r. rewrite tolerated_accepts. apply accepts_ext.
    unfold st. by rewrite remove_loop_unlink_err. }
  assert (Hbatch : ∀ x, x ∈ table w → TurnID x = None → accepts (fs w) x = true →
            ID x ∈ deleted (sweep_loop w)
            ∧ (err (cleanup f w) = None → x ∉ table (after (cleanup f w)))).
  { intros x Hx Ht Ha. split.
    - apply elem_of_sweep_deleted. by exists x.
    - intros Hok. by apply accepted_row_deleted. }
  destruct Hm as [Hm Ht].
  split; [|split; [|split; [|split]]].
  - intros e Hr He. apply Hbatch; try done.
    rewrite <- Hacc, Hr. exact He.
  - intros e Hr He Hnd.
    assert (Hid : ID m ∉ deleted (sweep_loop w)).
    { intros Hid. apply elem_of_sweep_deleted in Hid as (m' & Hm' & _ & Ha & Hid).
      assert (m' = m) as -> by (by apply (pk_unique (table w))).
      rewrite <- Hacc, Hr in Ha. cbn in Ha. congruence. }
    split; [done|by apply cleanup_row_stays].
  - unfold sweep_loop. rewrite Hsel, remove_loop_app. reflexivity.
  - intros m' Hm' Ha.
    assert (m' ∈ pre ++ m :: post) as Hm''.
    { apply elem_of_app in Hm' as [?|?]; apply elem_of_app; [by left|].
      right. apply elem_of_cons. by right. }
    destruct (Hin m' Hm'') as [? ?]. by apply Hbatch.
  - intros. by apply cleanup_ok_iff.
Qed.

Lemma sweep_blob_errors_witness :
  (ID m_gone ∈ deleted (sweep_loop w_mixed)
   ∧ m_gone ∉ table (after (cleanup no_faults w_mixed)))
  ∧ ((ID m_stuck ∉ deleted (sweep_loop w_mixed))
     ∧ m_stuck ∈ table (after (cleanup no_faults w_mixed)))
  ∧ (ID m_fresh ∈ deleted (sweep_loop w_mixed)
     ∧ m_fresh ∉ table (after (cleanup no_faults w_mixed))).
Proof.
  destruct (sweep_blob_errors no_faults w_mixed [] [m_stuck; m_fresh] m_gone eq_refl)
    as (Hgone & _ & _ & _ & _).
  destruct (sweep_blob_errors no_faults w_mixed [m_gone] [m_fresh] m_stuck eq_refl)
    as (_ & Hstuck & _ & Hrest & _).
  split; [|split].
  - destruct (Hgone ErrNotExist eq_refl eq_refl) as [H1 H2].
    split; [exact H1|apply H2; reflexivity].
  - apply (Hstuck ErrPermission eq_refl eq_refl). compute_done.
  - destruct (Hrest m_fresh) as [H1 H2]; [compute_done|reflexivity|].
    split; [exact H1|apply H2; reflexivity].
Defined.

Lemma filter_ext_in {A} (P Q : A → Prop)
    `{!∀ x, Decision (P x), !∀ x, Decision (Q x)} (l : list A) :
  (∀ x, x ∈ l → P x ↔ Q x) → filter P l = filter Q l.
Proof.
  induction l as [|a l IH]; intros HPQ; [reflexivity|].
  assert (Hl : ∀ x, x ∈ l → P x ↔ Q x).
  { intros x Hx. apply HPQ, elem_of_cons. by right. }
  assert (Ha : P a ↔ Q a) by (apply HPQ, elem_of_cons; by left).
  rewrite !filter_cons. rewrite (IH Hl).
  destruct (decide (P a)), (decide (Q a)); tauto.
Qed.

Lemma length_filter_split {A} (P : A → Prop) `{!∀ x, Decision (P x)} (l : list A) :
  (length (filter P l) + length (filter (λ x, ¬ P x) l) = length l)%nat.
Proof. by rewrite <- length_app, (filter_app_complement P l). Qed.

(** When every selected row has an accepted removal and primary keys are
    unique, the rows a committed sweep leaves are the linked ones. *)
Lemma Delete_ids_all_selected w :
  NoDup (map ID (table w)) →
  (∀ m, m ∈ selection w → accepts (fs w) m = true) →
  Delete_ids (deleted (sweep_loop w)) (table w)
  = filter (λ m, ¬ turn_id_is_null m) (table w).
Proof.
  intros Hnd Hall. unfold Delete_ids. apply filter_ext_in.
  intros m Hm. split.
  - intros Hid Ht. apply Hid, elem_of_sweep_deleted. exists m.
    repeat split; try done. apply Hall. by apply elem_of_selection.
  - intros Hl Hid. apply Hl.
    apply elem_of_sweep_deleted in Hid as (m' & Hm' & Ht & _ & Hid).
    assert (m' = m) as -> by (by apply (pk_unique (table w))).
    done.
Qed.

(** C6 (as amended): when the query succeeds, [cleanup] returns the number of
    rows the query selected, that is the number of rows with a NULL
    [turn_id], whether or not they are then deleted.  It is the number of
    rows deleted when every blob removal succeeded or was tolerated and the
    transaction committed (primary keys being unique). *)
Theorem cleanup_returns_selected_count (f : Faults) (w : World) :
  begin_err f = None →
  query_err f = None →
  n (cleanup f w) = Z.of_nat (length (selection w))
  ∧ (err (cleanup f w) = None →
     NoDup (map ID (table w)) →
     (∀ m, m ∈ selection w → accepts (fs w) m = true) →
     n (cleanup f w)
     = Z.of_nat (length (table w)) - Z.of_nat (length (table (after (cleanup f w))))).
Proof.
  intros Hb Hq.
  assert (Hn : n (cleanup f w) = Z.of_nat (length (selection w))).
  { unfold cleanup. rewrite Hb, Hq.
    destruct (delete_err f _); [reflexivity|].
    destruct (commit_err f); reflexivity. }
  split; [exact Hn|].
  intros Hok Hnd Hall. rewrite Hn, (cleanup_ok_table f w Hok).
  rewrite (Delete_ids_all_selected w Hnd Hall).
  pose proof (length_filter_split turn_id_is_null (table w)) as Hlen.
  unfold selection, Find_unlinked. lia.
Qed.

Lemma cleanup_returns_selected_count_witness :
  n (cleanup no_faults w_mixed) = 3
  ∧ n (cleanup no_faults w_fresh)
    = Z.of_nat (length (table w_fresh))
      - Z.of_nat (length (table (after (cleanup no_faults w_fresh)))).
Proof.
  split.
  - apply (cleanup_returns_selected_count no_faults w_mixed eq_refl eq_refl).
  - apply (cleanup_returns_selected_count no_faults w_fresh eq_refl eq_refl);
      [reflexivity|compute_done|].
    apply (Forall_forall (λ m, accepts (fs w_fresh) m = true)). compute_done.
Defined.

(** C6 (as stated) fails: over four rows of which three are unlinked and one
    of those has a blob that cannot be removed, the sweep commits and returns
    3, while it deleted two rows and one blob. *)
Lemma cleanup_count_is_not_reclaimed :
  err (cleanup no_faults w_mixed) = None
  ∧ n (cleanup no_faults w_mixed) = 3
  ∧ table w_mixed = [m_linked; m_gone; m_stuck; m_fresh]
  ∧ table (after (cleanup no_faults w_mixed)) = [m_linked; m_stuck]
  ∧ n (cleanup no_faults w_mixed)
    ≠ Z.of_nat (length (table w_mixed))
      - Z.of_nat (length (table (after (cleanup no_faults w_mixed)))).
Proof. repeat split; try reflexivity. vm_compute. discriminate. Qed.

End SweepFacts.

(** ** Theorems: the tasks of [run] *)

Section SupervisorFacts.
Import Store Supervisor Examples.

Lemma start_Inv w : Inv (start w).
Proof. unfold Inv, start; cbn. repeat split; try done. Qed.

Ltac use_returned :=
  repeat match goal with
  | H : ∀ r0, Returned ?r = Returned r0 → _ |- _ =>
      destruct (H r eq_refl) as [? ?]; clear H
  end.

Ltac by_premise :=
  match goal with
  | H : _ → ?G |- ?G => apply H; first [discriminate | done]
  | H : ∀ e, _ → ?G |- ?G => eapply H; first [reflexivity | done]
  end.

Lemma step_Inv ev p : Inv p → Inv (step ev p).
Proof.
  destruct p as [w h r d g]. unfold Inv.
  destruct ev as [|f| |e|res], h, r, d, g; cbn;
    try destruct res; cbn; intros (Hh & Hr & He & Hg);
    repeat split; intros; simplify_eq; use_returned; simplify_eq;
    first [done | by_premise].
Qed.

Lemma run_events_Inv evs p : Inv p → Inv (run_events evs p).
Proof.
  revert p. induction evs as [|ev evs IH]; intros p Hp; cbn; [done|].
  by apply IH, step_Inv.
Qed.

(** Once the group has recorded an error it keeps one. *)
Lemma step_group_err ev p : group_err p ≠ None → group_err (step ev p) ≠ None.
Proof.
  destruct p as [w h r d [g|]]; [intros _|done].
  destruct ev as [|f| |e|res]; cbn; try done.
  - by destruct r.
  - by destruct r, d.
  - by destruct h.
  - destruct h, d; try done. by destruct res.
Qed.

Lemma run_events_group_err evs p :
  group_err p ≠ None → group_err (run_events evs p) ≠ None.
Proof.
  revert p. induction evs as [|ev evs IH]; intros p Hp; cbn; [done|].
  by apply IH, step_group_err.
Qed.

Lemma exit_status_group_err p z :
  group_err p ≠ None → exit_status p = Some z → z = 1.
Proof.
  unfold exit_status. destruct (http p), (reclaim p); try done.
  destruct (group_err p); [|done]. by intros _ [= <-].
Qed.

Example clean_shutdown_exits_0 :
  exit_status (run_events [Tick no_faults; Signal; HttpSeesDone None; ReclaimSeesDone]
                          (start w_mixed)) = Some 0.
Proof. reflexivity. Qed.

(** C7: when a sweep started by a tick of the cleanup loop returns an error,
    the error is printed and the loop stays in its [for]: no task returns,
    the context is not cancelled, the process does not exit, and the next
    tick runs a sweep again.  Whatever happens later, the loop only returns
    once the context is done, and then with [nil]. *)
Theorem failed_sweep_keeps_loop (w : World) (evs : list event)
    (f : Faults) (e : error) :
  let p := run_events evs (start w) in
  reclaim p = Running →
  err (cleanup f (world p)) = Some e →
  let p' := step (Tick f) p in
  logged (world p') = logged (after (cleanup f (world p))) ++ [e]
  ∧ reclaim p' = Running
  ∧ http p' = http p
  ∧ ctx_done p' = ctx_done p
  ∧ group_err p' = group_err p
  ∧ exit_status p' = None
  ∧ (∀ f', reclaim (step (Tick f') p') = Running
           ∧ world (step (Tick f') p') = tick f' (world p'))
  ∧ (∀ evs' r, reclaim (run_events evs' p') = Returned r →
               r = None ∧ ctx_done (run_events evs' p') = true).
Proof.
  intros p Hrun Herr p'.
  assert (Hp' : p' = mkProc (tick f (world p)) (http p) Running (ctx_done p)
                            (group_err p)).
  { unfold p'. cbn. by rewrite Hrun. }
  rewrite Hp'. cbn.
  split; [unfold tick; by rewrite Herr|].
  do 4 (split; [reflexivity|]).
  split; [unfold exit_status; cbn; by destruct (http p)|].
  split; [intros f'; by split|].
  intros evs' r Hr.
  assert (HI : Inv (run_events evs' p')).
  { apply run_events_Inv, step_Inv, run_events_Inv, start_Inv. }
  rewrite Hp' in HI. destruct HI as (_ & HI & _). by destruct (HI r Hr).
Qed.

Lemma failed_sweep_keeps_loop_witness :
  let p' := step (Tick commit_fails) (start w_mixed) in
  logged (world p') = [ErrPermission; ErrDB "commit failed"]
  ∧ reclaim p' = Running
  ∧ exit_status p' = None.
Proof.
  destruct (failed_sweep_keeps_loop w_mixed [] commit_fails (ErrDB "commit failed")
              eq_refl eq_refl) as (H1 & H2 & _ & _ & _ & H3 & _).
  cbv zeta. split; [|split].
  - cbn [run_events] in H1. rewrite H1. reflexivity.
  - exact H2.
  - exact H3.
Defined.

(** A cancelled context stays cancelled, and a task that has returned stays
    returned. *)
Lemma step_ctx_done ev p : ctx_done p = true → ctx_done (step ev p) = true.
Proof.
  destruct p as [w h r d g]; cbn. intros ->.
  destruct ev as [|f| |e|res], h, r, g; try destruct res; reflexivity.
Qed.

Lemma step_http_returned ev p : http p ≠ Running → http (step ev p) ≠ Running.
Proof.
  destruct p as [w h r d g]; cbn. intros Hh.
  destruct ev as [|f| |e|res], h, r, d, g; try destruct res; done.
Qed.

Lemma step_reclaim_returned ev p :
  reclaim p ≠ Running → reclaim (step ev p) ≠ Running.
Proof.
  destruct p as [w h r d g]; cbn. intros Hh.
  destruct ev as [|f| |e|res], h, r, d, g; try destruct res; done.
Qed.

Lemma run_events_http_returned evs p :
  http p ≠ Running → http (run_events evs p) ≠ Running.
Proof.
  revert p. induction evs as [|ev evs IH]; intros p Hp; cbn; [done|].
  by apply IH, step_http_returned.
Qed.

Lemma run_events_reclaim_returned evs p :
  reclaim p ≠ Running → reclaim (run_events evs p) ≠ Running.
Proof.
  revert p. induction evs as [|ev evs IH]; intros p Hp; cbn; [done|].
  by apply IH, step_reclaim_returned.
Qed.

(** Under a cancelled context, a task returns when it sees the context
    done. *)
Lemma reclaim_returns evs p :
  ctx_done p = true → ReclaimSeesDone ∈ evs →
  reclaim (run_events evs p) ≠ Running.
Proof.
  revert p. induction evs as [|ev evs IH]; intros p Hd Hin.
  { by apply elem_of_nil in Hin. }
  cbn. apply elem_of_cons in Hin as [<-|Hin].
  - apply run_events_reclaim_returned.
    destruct p as [w h r d g]; cbn in *. subst d. by destruct r.
  - apply IH; [by apply step_ctx_done|done].
Qed.

Lemma http_returns evs p res :
  ctx_done p = true → HttpSeesDone res ∈ evs →
  http (run_events evs p) ≠ Running.
Proof.
  revert p. induction evs as [|ev evs IH]; intros p Hd Hin.
  { by apply elem_of_nil in Hin. }
  cbn. apply elem_of_cons in Hin as [<-|Hin].
  - apply run_events_http_returned.
    destruct p as [w h r d g]; cbn in *. subst d. by destruct h, res, g.
  - apply IH; [by apply step_ctx_done|done].
Qed.

(** C8: the server and the cleanup loop share one errgroup.  Once a task has
    returned a non-nil error, the context of the group is cancelled and the
    group holds an error; in every continuation in which each task gets to
    see the context done, both tasks have returned and [main] exits with
    status 1; and however the run continues, an exit is an exit with status
    1. *)
Theorem task_error_tears_down (w : World) (evs : list event) (e : error) :
  let p := run_events evs (start w) in
  http p = Returned (Some e) ∨ reclaim p = Returned (Some e) →
  ctx_done p = true
  ∧ group_err p ≠ None
  ∧ (∀ evs' res, ReclaimSeesDone ∈ evs' → HttpSeesDone res ∈ evs' →
       let q := run_events evs' p in
       http q ≠ Running ∧ reclaim q ≠ Running ∧ exit_status q = Some 1)
  ∧ (∀ evs' z, exit_status (run_events evs' p) = Some z → z = 1).
Proof.
  intros p Hret.
  assert (HI : Inv p) by apply run_events_Inv, start_Inv.
  destruct HI as (Hh & Hr & He & Hg).
  assert (Hhttp : http p = Returned (Some e)).
  { destruct Hret as [?|Hrec]; [done|]. by destruct (Hr _ Hrec). }
  assert (Hge : group_err p ≠ None) by (by apply (He e)).
  assert (Hd : ctx_done p = true) by (by apply Hg).
  split; [done|]. split; [done|]. split.
  - intros evs' res Hin1 Hin2 q.
    assert (H1 : http q ≠ Running) by (by apply (http_returns evs' p res)).
    assert (H2 : reclaim q ≠ Running) by (by apply reclaim_returns).
    assert (H3 : group_err q ≠ None) by (by apply run_events_group_err).
    split; [done|]. split; [done|].
    unfold exit_status. destruct (http q), (reclaim q); try done.
    by destruct (group_err q).
  - intros evs' z Hz. apply (exit_status_group_err _ z) in Hz; [done|].
    by apply run_events_group_err.
Qed.

Lemma task_error_tears_down_witness :
  let p := run_events [Tick no_faults; ListenFails bind_error] (start w_mixed) in
  ctx_done p = true
  ∧ group_err p ≠ None
  ∧ exit_status (run_events [Signal; ReclaimSeesDone; HttpSeesDone None] p)
    = Some 1.
Proof.
  destruct (task_error_tears_down w_mixed [Tick no_faults; ListenFails bind_error]
              bind_error (or_introl eq_refl)) as (H1 & H2 & H3 & _).
  cbv zeta. split; [exact H1|]. split; [exact H2|].
  apply (H3 [Signal; ReclaimSeesDone; HttpSeesDone None] None);
    repeat first [apply list_elem_of_here | apply list_elem_of_further].
Defined.

End SupervisorFacts.

(** ** Theorems: upload then download *)

Section ArtifactFacts.
Import Store Artifact Examples.

Lemma filter_none {A} (P : A → Prop) `{!∀ x, Decision (P x)} (l : list A) :
  (∀ x, x ∈ l → ¬ P x) → filter P l = [].
Proof.
  induction l as [|a l IH]; intros Hl; [reflexivity|].
  rewrite filter_cons_False by (apply Hl, elem_of_cons; by left).
  apply IH. intros x Hx. apply Hl, elem_of_cons. by right.
Qed.

(** After the transaction of an upload the turn's current record is the new
    one. *)
Lemma current_superseded turnId tbl md :
  TurnID md = Some turnId →
  current turnId (filter (λ m, TurnID m ≠ Some turnId) tbl ++ [md]) = Some md.
Proof.
  intros Hmd. unfold current. rewrite filter_app.
  rewrite (filter_none (λ m, TurnID m = Some turnId)
             (filter (λ m, TurnID m ≠ Some turnId) tbl)).
  - rewrite app_nil_l, (filter_cons_True _ md []) by done. reflexivity.
  - intros x Hx. apply list_elem_of_filter in Hx. tauto.
Qed.

Lemma current_elem_of turnId tbl m :
  current turnId tbl = Some m → m ∈ tbl.
Proof.
  unfold current. intros Hh.
  assert (Hm : m ∈ filter (λ m, TurnID m = Some turnId) tbl).
  { destruct (filter _ tbl) as [|x l]; cbn in Hh; [discriminate|].
    injection Hh as ->. apply elem_of_cons. by left. }
  apply list_elem_of_filter in Hm. tauto.
Qed.

(** The new path is the path of no file and of no record. *)
Lemma new_path_fresh w :
  files (fs w) !! new_path w = None ∧ ∀ m, m ∈ table w → Path m ≠ new_path w.
Proof.
  pose proof (is_fresh (dom (files (fs w)) ∪ list_to_set (map Path (table w))
                        : gset string)) as Hf.
  fold (new_path w) in Hf. split.
  - apply not_elem_of_dom. set_solver.
  - intros m Hm Heq. apply Hf, elem_of_union. right.
    apply elem_of_list_to_set, list_elem_of_fmap. by exists m.
Qed.

(** C9: after a successful upload for a turn, downloading the turn's artifact
    gives exactly the uploaded bytes, and their number is the size in the
    metadata the upload returned (which is also the size the download
    reports). *)
Theorem upload_download_roundtrip (maxSize now : Z) (uf : UploadFaults)
    (turnId : Z) (content : list Byte.byte) (ctype : string)
    (w w' : World) (md : Metadata) :
  Upload maxSize now uf turnId content ctype w = (inr md, w') →
  Download turnId w' = inr (content, Size md)
  ∧ Size md = Z.of_nat (length content).
Proof.
  unfold Upload.
  destruct (decide (turnId ∉ turns w)); [discriminate|].
  destruct (decide (ctype ≠ archive_type ∨ maxSize < Z.of_nat (length content)));
    [discriminate|].
  destruct (write_err uf); [discriminate|].
  destruct (tx_err uf); [discriminate|].
  destruct (new_path_fresh w) as [Hnone Hpaths].
  destruct (current turnId (table w)) as [old|] eqn:Hcur.
  - destruct (os_Remove (Path old) _) as [fs2 r] eqn:Hrm.
    intros [= <- <-]. cbn. split; [|reflexivity].
    unfold Download; cbn. rewrite current_superseded by reflexivity. cbn.
    assert (Hold : Path old ≠ new_path w).
    { apply Hpaths. by apply (current_elem_of turnId). }
    assert (Hfs2 : files fs2 !! new_path w = Some content).
    { replace fs2 with (os_Remove (Path old)
        (mkFS (<[new_path w:=content]> (files (fs w))) (unlink_err (fs w)))).1
        by (by rewrite Hrm).
      rewrite os_Remove_other by done. cbn. apply lookup_insert_eq. }
    by rewrite Hfs2.
  - intros [= <- <-]. cbn. split; [|reflexivity].
    unfold Download; cbn. rewrite current_superseded by reflexivity. cbn.
    by rewrite lookup_insert_eq.
Qed.

Lemma upload_download_roundtrip_witness :
  Download 7 (Upload 1000 2000 upload_ok 7 zip2 "application/zip" w_fresh).2
  = inr (zip2, 4).
Proof.
  pose (r := Upload 1000 2000 upload_ok 7 zip2 "application/zip" w_fresh).
  assert (Hr : r = (inr (mkMetadata 3 2000 (Some 7) (new_path w_fresh) 4), r.2))
    by (vm_compute; reflexivity).
  apply (upload_download_roundtrip _ _ _ _ _ _ _ _ _ Hr).
Defined.

End ArtifactFacts.

(** ** More on the configuration defaults *)

Section ConfigMore.
Import Config.

(** X1: after [makeDefaults] none of the four defaulted fields has its zero
    value. *)
Theorem makeDefaults_nonzero (c : Configuration) :
  ApiPrefix (makeDefaults c) ≠ EmptyString
  ∧ ListenAddress (makeDefaults c) ≠ EmptyString
  ∧ DataDir (makeDefaults c) ≠ EmptyString
  ∧ CleanupInterval (makeDefaults c) ≠ 0.
Proof.
  destruct c as [pg la ap dd sw ci]; unfold makeDefaults; cbn.
  repeat (case_decide; cbn in *); subst; repeat split; done.
Qed.

(** X2: [makeDefaults] returns its argument unchanged exactly when the four
    defaulted fields are all set. *)
Theorem makeDefaults_id_iff (c : Configuration) :
  makeDefaults c = c
  ↔ ApiPrefix c ≠ EmptyString ∧ ListenAddress c ≠ EmptyString
    ∧ DataDir c ≠ EmptyString ∧ CleanupInterval c ≠ 0.
Proof.
  destruct c as [pg la ap dd sw ci]; unfold makeDefaults; cbn. split.
  - repeat (case_decide; cbn in *); subst; intros [= ]; subst;
      repeat split; done.
  - intros (H1 & H2 & H3 & H4).
    repeat (case_decide; cbn in *); subst; done.
Qed.

(** X3: applying [makeDefaults] twice is the same as applying it once. *)
Theorem makeDefaults_idempotent (c : Configuration) :
  makeDefaults (makeDefaults c) = makeDefaults c.
Proof.
  assert (Hfix : ∀ d, ApiPrefix d ≠ EmptyString → ListenAddress d ≠ EmptyString →
                      DataDir d ≠ EmptyString → CleanupInterval d ≠ 0 →
                      makeDefaults d = d).
  { intros [pg la ap dd sw ci] H1 H2 H3 H4; unfold makeDefaults; cbn in *.
    repeat (case_decide; cbn in *); subst; done. }
  apply Hfix; destruct c as [pg la ap dd sw ci]; unfold makeDefaults; cbn;
    repeat (case_decide; cbn in *); subst; done.
Qed.

(** X4: the interval handed to [time.NewTicker] (line 166), which panics unless
    it is positive: it is positive exactly when the configured one is not
    negative; a negative interval is kept as it is. *)
Theorem makeDefaults_interval_positive (c : Configuration) :
  (0 < CleanupInterval (makeDefaults c) ↔ 0 ≤ CleanupInterval c)
  ∧ (CleanupInterval c < 0 →
     CleanupInterval (makeDefaults c) = CleanupInterval c).
Proof.
  destruct c as [pg la ap dd sw ci]; unfold makeDefaults; cbn.
  repeat (case_decide; cbn in *); subst; cbn; unfold Hour, Minute, Second, Nanosecond; lia.
Qed.

Lemma makeDefaults_interval_positive_witness :
  CleanupInterval (makeDefaults
    (mkConfiguration "postgres://db" EmptyString EmptyString EmptyString false (-5)))
  = -5.
Proof.
  apply (makeDefaults_interval_positive
           (mkConfiguration "postgres://db" EmptyString EmptyString EmptyString false (-5))).
  reflexivity.
Defined.

End ConfigMore.

(** ** More on one sweep *)

Section SweepMore.
Import Store Examples.

Lemma os_Remove_subseteq name fs0 : files (os_Remove name fs0).1 ⊆ files fs0.
Proof.
  unfold os_Remove.
  destruct (unlink_err fs0 !! name); [done|].
  destruct (files fs0 !! name); cbn; [apply delete_subseteq|done].
Qed.

Lemma remove_loop_files_subseteq ms st :
  files (l_fs (remove_loop ms st)) ⊆ files (l_fs st).
Proof.
  revert st. induction ms as [|m ms IH]; intros st; cbn; [done|].
  etrans; [apply IH|]. rewrite remove_one_fs. apply os_Remove_subseteq.
Qed.

Lemma os_Remove_gone name fs0 :
  unlink_err fs0 !! name = None → files (os_Remove name fs0).1 !! name = None.
Proof.
  intros Hu. unfold os_Remove. rewrite Hu.
  destruct (files fs0 !! name) eqn:Ef; cbn; [apply lookup_delete_eq|done].
Qed.

(** Once the loop has passed a row whose unlink does not fail, its file is
    not there. *)
Lemma remove_loop_gone ms st m :
  m ∈ ms → unlink_err (l_fs st) !! Path m = None →
  files (l_fs (remove_loop ms st)) !! Path m = None.
Proof.
  revert st. induction ms as [|x ms IH]; intros st Hm Hu.
  { by apply elem_of_nil in Hm. }
  cbn. apply elem_of_cons in Hm as [<-|Hm].
  - eapply lookup_weaken_None; [|apply remove_loop_files_subseteq].
    rewrite remove_one_fs. by apply os_Remove_gone.
  - apply IH; [done|]. by rewrite remove_one_fs, os_Remove_unlink_err.
Qed.

(** Rows whose removal is not accepted leave the filesystem as it is. *)
Lemma remove_loop_unaccepted_fs ms st :
  (∀ m, m ∈ ms → accepts (l_fs st) m = false) →
  l_fs (remove_loop ms st) = l_fs st.
Proof.
  revert st. induction ms as [|x ms IH]; intros st Hall; cbn; [done|].
  assert (Hx : l_fs (remove_one x st) = l_fs st).
  { rewrite remove_one_fs.
    assert (Ha : accepts (l_fs st) x = false) by (apply Hall, elem_of_cons; by left).
    unfold accepts in Ha. destruct (unlink_err (l_fs st) !! Path x) as [e|] eqn:Eu;
      [|discriminate].
    by rewrite (os_Remove_faulty _ _ _ Eu). }
  rewrite IH; [done|].
  intros m Hm. rewrite Hx. apply Hall, elem_of_cons. by right.
Qed.

Lemma remove_one_printed m st :
  l_log (remove_one m st) = l_log st ++ option_list (printed (l_fs st) m).
Proof.
  unfold remove_one, printed, os_Remove.
  destruct (unlink_err (l_fs st) !! Path m) as [e|]; cbn.
  - destruct (is_ErrNotExist e); cbn; [by rewrite app_nil_r|done].
  - destruct (files (l_fs st) !! Path m); cbn; by rewrite app_nil_r.
Qed.

Lemma printed_ext fs1 fs2 m :
  unlink_err fs1 = unlink_err fs2 → printed fs1 m = printed fs2 m.
Proof. unfold printed. by intros ->. Qed.

Lemma remove_loop_log ms st :
  l_log (remove_loop ms st) = l_log st ++ omap (printed (l_fs st)) ms.
Proof.
  revert st. induction ms as [|m ms IH]; intros st; cbn.
  - by rewrite app_nil_r.
  - rewrite IH, remove_one_printed, <- app_assoc. f_equal.
    rewrite (list_omap_ext (printed (l_fs (remove_one m st))) (printed (l_fs st)) ms ms).
    + by destruct (printed (l_fs st) m).
    + apply Forall2_same_length_lookup_2; [done|].
      intros i x y Hx Hy. rewrite Hx in Hy. injection Hy as <-.
      apply printed_ext. by rewrite remove_one_fs, os_Remove_unlink_err.
Qed.

(** The filesystem and the log a sweep leaves are those of the start or those
    of the end of its loop. *)
Lemma cleanup_after_loop f w :
  begin_err f = None → query_err f = None →
  fs (after (cleanup f w)) = l_fs (sweep_loop w)
  ∧ logged (after (cleanup f w)) = l_log (sweep_loop w).
Proof.
  intros Hb Hq. unfold cleanup. rewrite Hb, Hq.
  destruct (delete_err f _); [done|]. by destruct (commit_err f).
Qed.

Lemma cleanup_after_fs f w :
  fs (after (cleanup f w)) = fs w ∨ fs (after (cleanup f w)) = l_fs (sweep_loop w).
Proof.
  destruct (cleanup_cases f w) as [[_ ->]|[(_ & _ & ->)|(_ & _ & ->)]];
    [by left|by right|by right].
Qed.

Lemma cleanup_after_table f w :
  table (after (cleanup f w)) = table w
  ∨ table (after (cleanup f w)) = Delete_ids (deleted (sweep_loop w)) (table w).
Proof.
  destruct (cleanup_cases f w) as [[_ ->]|[(_ & _ & ->)|(_ & _ & ->)]];
    [by left|by left|by right].
Qed.


(** X5: what a sweep leaves alone: it never touches the turns, never changes
    which paths fail to unlink, never adds, changes or reorders a row (the
    rows it leaves are a sublist of the rows before), and never creates or
    rewrites a file (every file it leaves was there with the same content). *)
Theorem cleanup_only_removes (f : Faults) (w : World) :
  turns (after (cleanup f w)) = turns w
  ∧ unlink_err (fs (after (cleanup f w))) = unlink_err (fs w)
  ∧ table (after (cleanup f w)) `sublist_of` table w
  ∧ files (fs (after (cleanup f w))) ⊆ files (fs w).
Proof.
  split; [|split; [|split]].
  - by destruct (cleanup_cases f w) as [[_ ->]|[(_ & _ & ->)|(_ & _ & ->)]].
  - destruct (cleanup_after_fs f w) as [->| ->]; [done|].
    unfold sweep_loop. by rewrite remove_loop_unlink_err.
  - destruct (cleanup_after_table f w) as [->| ->]; [done|].
    apply sublist_filter.
  - destruct (cleanup_after_fs f w) as [->| ->]; [done|].
    apply (remove_loop_files_subseteq (selection w)).
Qed.

Lemma omap_sublist {A B} (g : A → option B) (l1 l2 : list A) :
  l1 `sublist_of` l2 → omap g l1 `sublist_of` omap g l2.
Proof.
  induction 1 as [|x l1 l2 _ IH|x l1 l2 _ IH]; cbn.
  - constructor.
  - destruct (g x); [by constructor|done].
  - destruct (g x); [by constructor|done].
Qed.

(** X6: a sweep keeps the two uniqueness constraints of the table: primary keys
    stay unique, and so do the turns that rows are linked to. *)
Theorem cleanup_keeps_unique (f : Faults) (w : World) :
  (NoDup (map ID (table w)) → NoDup (map ID (table (after (cleanup f w)))))
  ∧ (NoDup (omap TurnID (table w)) →
     NoDup (omap TurnID (table (after (cleanup f w))))).
Proof.
  assert (Hsub : table (after (cleanup f w)) `sublist_of` table w).
  { destruct (cleanup_after_table f w) as [->| ->]; [done|]. apply sublist_filter. }
  split; intros Hnd.
  - eapply sublist_NoDup; [exact Hnd|]. by apply fmap_sublist.
  - eapply sublist_NoDup; [exact Hnd|]. by apply omap_sublist.
Qed.

Lemma cleanup_keeps_unique_witness :
  NoDup (map ID (table (after (cleanup no_faults w_mixed))))
  ∧ NoDup (omap TurnID (table (after (cleanup no_faults w_mixed)))).
Proof.
  destruct (cleanup_keeps_unique no_faults w_mixed) as [H1 H2].
  split; [apply H1|apply H2]; compute_done.
Defined.

Lemma Delete_ids_nil tbl : Delete_ids [] tbl = tbl.
Proof.
  unfold Delete_ids. induction tbl as [|x tbl IH]; [done|].
  rewrite filter_cons_True by apply not_elem_of_nil. by rewrite IH.
Qed.

Lemma filter_accepts_nil fs0 ms :
  (∀ m, m ∈ ms → accepts fs0 m = false) →
  filter (λ m, accepts fs0 m) ms = [].
Proof.
  induction ms as [|x ms IH]; intros Hall; [done|].
  rewrite filter_cons_False.
  - apply IH. intros m Hm. apply Hall, elem_of_cons. by right.
  - rewrite (Hall x) by (apply elem_of_cons; by left). cbn. tauto.
Qed.

Lemma selection_nil w :
  (∀ m, m ∈ table w → TurnID m ≠ None) → selection w = [].
Proof.
  unfold selection, Find_unlinked. induction (table w) as [|x tbl IH]; intros Hall;
    [done|].
  rewrite filter_cons_False by (apply Hall, elem_of_cons; by left).
  apply IH. intros m Hm. apply Hall, elem_of_cons. by right.
Qed.

(** X7: over a table in which every row is linked to a turn, a sweep changes
    nothing at all, whatever the store does: no file is removed, no row is
    deleted, nothing is printed; and when its query succeeds it returns 0. *)
Theorem cleanup_without_unlinked (f : Faults) (w : World) :
  (∀ m, m ∈ table w → TurnID m ≠ None) →
  after (cleanup f w) = w
  ∧ (query_err f = None → n (cleanup f w) = 0).
Proof.
  intros Hall. pose proof (selection_nil w Hall) as Hsel.
  assert (Hloop : sweep_loop w = mkLoop (fs w) (logged w) []).
  { unfold sweep_loop. by rewrite Hsel. }
  split.
  - destruct (cleanup_cases f w) as [[_ ->]|[(_ & _ & ->)|(_ & _ & ->)]];
      [done| |]; rewrite Hloop; cbn; [|rewrite Delete_ids_nil]; by destruct w.
  - intros Hq. unfold cleanup. rewrite Hq, Hsel.
    destruct (begin_err f); [done|].
    destruct (delete_err f _); [done|]. by destruct (commit_err f).
Qed.

Lemma cleanup_without_unlinked_witness :
  after (cleanup commit_fails (mkWorld [m_linked] {[ 7 ]} fs_fresh []))
  = mkWorld [m_linked] {[ 7 ]} fs_fresh [].
Proof.
  apply (cleanup_without_unlinked commit_fails (mkWorld [m_linked] {[ 7 ]} fs_fresh [])).
  apply (Forall_forall (λ m, TurnID m ≠ None)). compute_done.
Defined.

(** The unlinked rows a committed sweep leaves are those whose blob could
    not be removed. *)
Lemma left_unlinked_unaccepted f w m :
  err (cleanup f w) = None →
  m ∈ selection (after (cleanup f w)) →
  accepts (fs (after (cleanup f w))) m = false.
Proof.
  intros Hok Hm. apply elem_of_selection in Hm as [Ht Hm].
  rewrite (cleanup_ok_table f w Hok) in Hm.
  apply elem_of_Delete_ids in Hm as [Hid Hm].
  destruct (accepts (fs (after (cleanup f w))) m) eqn:Ha; [|done].
  exfalso. apply Hid, elem_of_sweep_deleted. exists m. repeat split; try done.
  rewrite <- Ha. apply accepts_ext.
  destruct (cleanup_after_fs f w) as [->| ->]; [done|].
  unfold sweep_loop. by rewrite remove_loop_unlink_err.
Qed.

(** X8: after a sweep that committed, another sweep finds nothing to do: its
    batch is empty, and whatever the store does it deletes no row and removes
    no file. *)
Theorem second_sweep_changes_nothing (f1 f2 : Faults) (w : World) :
  err (cleanup f1 w) = None →
  let w1 := after (cleanup f1 w) in
  deleted (sweep_loop w1) = []
  ∧ table (after (cleanup f2 w1)) = table w1
  ∧ fs (after (cleanup f2 w1)) = fs w1.
Proof.
  intros Hok w1.
  assert (Hun : ∀ m, m ∈ selection w1 → accepts (fs w1) m = false).
  { intros m. by apply left_unlinked_unaccepted. }
  assert (Hbatch : deleted (sweep_loop w1) = []).
  { by rewrite sweep_loop_deleted, filter_accepts_nil. }
  split; [done|]. split.
  - destruct (cleanup_after_table f2 w1) as [->| ->]; [done|].
    by rewrite Hbatch, Delete_ids_nil.
  - destruct (cleanup_after_fs f2 w1) as [->| ->]; [done|].
    unfold sweep_loop. by apply remove_loop_unaccepted_fs.
Qed.

Lemma second_sweep_changes_nothing_witness :
  table (after (cleanup no_faults (after (cleanup no_faults w_mixed))))
  = [m_linked; m_stuck].
Proof.
  destruct (second_sweep_changes_nothing no_faults no_faults w_mixed eq_refl)
    as (_ & H & _).
  cbv zeta in H. rewrite H. reflexivity.
Defined.

(** X9: after a sweep that returned an error, the next sweep selects the same
    rows and builds the same batch, although some of their blobs are already
    gone; when it commits, it leaves the rows the failed sweep would have
    left. *)
Theorem failed_sweep_is_retried (f1 f2 : Faults) (w : World) :
  err (cleanup f1 w) ≠ None →
  let w1 := after (cleanup f1 w) in
  selection w1 = selection w
  ∧ deleted (sweep_loop w1) = deleted (sweep_loop w)
  ∧ (err (cleanup f2 w1) = None →
     table (after (cleanup f2 w1)) = Delete_ids (deleted (sweep_loop w)) (table w)).
Proof.
  intros Herr w1.
  assert (Htab : table w1 = table w) by (by apply cleanup_err_table).
  assert (Hsel : selection w1 = selection w) by (by apply selection_table).
  assert (Hu : unlink_err (fs w1) = unlink_err (fs w)).
  { unfold w1. destruct (cleanup_after_fs f1 w) as [->| ->]; [done|].
    unfold sweep_loop. by rewrite remove_loop_unlink_err. }
  assert (Hbatch : deleted (sweep_loop w1) = deleted (sweep_loop w)).
  { rewrite !sweep_loop_deleted, Hsel. f_equal.
    apply list_filter_iff. intros m. by rewrite (accepts_ext _ _ m Hu). }
  split; [done|]. split; [done|].
  intros Hok. by rewrite (cleanup_ok_table f2 w1 Hok), Hbatch, Htab.
Qed.

Lemma failed_sweep_is_retried_witness :
  table (after (cleanup no_faults (after (cleanup commit_fails w_mixed))))
  = [m_linked; m_stuck].
Proof.
  destruct (failed_sweep_is_retried commit_fails no_faults w_mixed) as (_ & _ & H);
    [discriminate|].
  cbv zeta in H. rewrite H by reflexivity. reflexivity.
Defined.

(** X10: what a sweep prints: when its query succeeds, one line for each selected
    row whose blob could not be removed for another reason than a missing
    file, in the order of the rows, and nothing else (a missing file is not
    reported); when the transaction cannot begin or the query fails,
    nothing. *)
Theorem cleanup_log (f : Faults) (w : World) :
  (begin_err f = None → query_err f = None →
   logged (after (cleanup f w)) = logged w ++ omap (printed (fs w)) (selection w))
  ∧ (begin_err f ≠ None ∨ query_err f ≠ None →
     logged (after (cleanup f w)) = logged w).
Proof.
  split.
  - intros Hb Hq. destruct (cleanup_after_loop f w Hb Hq) as [_ ->].
    unfold sweep_loop. by rewrite remove_loop_log.
  - unfold cleanup. intros [Hb|Hq].
    + by destruct (begin_err f).
    + destruct (begin_err f); [done|]. by destruct (query_err f).
Qed.

Lemma cleanup_log_witness :
  logged (after (cleanup commit_fails w_mixed)) = [ErrPermission].
Proof.
  destruct (cleanup_log commit_fails w_mixed) as [H _].
  rewrite H by reflexivity. reflexivity.
Defined.

(** X11: when the query of a sweep succeeds, the blob of every unlinked row whose
    unlink does not fail is gone afterwards, also when the transaction then
    fails to delete the rows or to commit. *)
Theorem cleanup_removes_blobs (f : Faults) (w : World) (m : Metadata) :
  begin_err f = None → query_err f = None →
  m ∈ table w → TurnID m = None →
  unlink_err (fs w) !! Path m = None →
  ¬ blob_exists (Path m) (after (cleanup f w)).
Proof.
  intros Hb Hq Hm Ht Hu. unfold blob_exists.
  destruct (cleanup_after_loop f w Hb Hq) as [-> _].
  unfold sweep_loop. rewrite remove_loop_gone; [by intros [? ?]| |done].
  by apply elem_of_selection.
Qed.

Lemma cleanup_removes_blobs_witness :
  ¬ blob_exists (Path m_fresh) (after (cleanup commit_fails w_mixed)).
Proof.
  apply (cleanup_removes_blobs commit_fails w_mixed m_fresh);
    [reflexivity|reflexivity|compute_done|reflexivity|reflexivity].
Defined.

End SweepMore.

(** ** More on the tasks of [run] *)

Section SupervisorMore.
Import Store Supervisor Examples.











Lemma benign_group_err evs p :
  Forall (λ ev, is_failure ev = false) evs →
  group_err p = None → group_err (run_events evs p) = None.
Proof.
  intros Hevs. revert p.
  induction Hevs as [|ev evs Hf _ IH]; intros p Hg; cbn; [done|].
  apply IH. destruct p as [pw h r d g]; cbn in *; subst.
  destruct ev as [|f| |e|[e|]]; cbn; try done.
  - by destruct r.
  - by destruct r, d.
  - by destruct h, d.
Qed.

Lemma run_events_ctx_done evs p :
  ctx_done p = true → ctx_done (run_events evs p) = true.
Proof.
  revert p. induction evs as [|ev evs IH]; intros p Hp; cbn; [done|].
  by apply IH, step_ctx_done.
Qed.

Lemma run_events_app evs1 evs2 p :
  run_events (evs1 ++ evs2) p = run_events evs2 (run_events evs1 p).
Proof.
  revert p. induction evs1 as [|ev evs1 IH]; intros p; cbn; [done|]. apply IH.
Qed.

(** X16: a clean shutdown: when no task fails, and after a signal each task gets
    to see the context done (the server's [Shutdown] returning [nil]), both
    tasks have returned, the group holds no error and [main] exits with
    status 0; sweeps failing in between make no difference. *)
Theorem clean_shutdown_exits_zero (w : World) (evs1 evs2 : list event) :
  Forall (λ ev, is_failure ev = false) (evs1 ++ Signal :: evs2) →
  ReclaimSeesDone ∈ evs2 →
  HttpSeesDone None ∈ evs2 →
  let p := run_events (evs1 ++ Signal :: evs2) (start w) in
  group_err p = None ∧ exit_status p = Some 0.
Proof.
  intros Hben Hr Hh p.
  assert (Hg : group_err p = None) by (by apply benign_group_err).
  split; [done|].
  unfold p in *. rewrite run_events_app in *. cbn [run_events] in *.
  set (q := step Signal (run_events evs1 (start w))) in *.
  assert (Hd : ctx_done q = true) by done.
  pose proof (reclaim_returns evs2 q Hd Hr) as H1.
  pose proof (http_returns evs2 q None Hd Hh) as H2.
  unfold exit_status. rewrite Hg.
  by destruct (http (run_events evs2 q)), (reclaim (run_events evs2 q)).
Qed.

Lemma clean_shutdown_exits_zero_witness :
  exit_status (run_events ([Tick commit_fails] ++ Signal ::
                           [Tick no_faults; HttpSeesDone None; ReclaimSeesDone])
                          (start w_mixed)) = Some 0.
Proof.
  apply (clean_shutdown_exits_zero w_mixed [Tick commit_fails]
           [Tick no_faults; HttpSeesDone None; ReclaimSeesDone]).
  - repeat constructor.
  - repeat first [apply list_elem_of_here | apply list_elem_of_further].
  - repeat first [apply list_elem_of_here | apply list_elem_of_further].
Defined.



End SupervisorMore.
